(** * The xDS (ADS) client of the traffic plugin: plugin/traffic/xds/client.go

    A shallow embedding of the client's resource store ([assignment]), of
    the request builders ([ClusterDiscovery], [EndpointDiscovery]), of the
    constructor [New] and of the receive loop [Receive], followed by the
    properties of the client's behaviour.

    Conventions.
    - A Go [map[string]*T] is a [gmap string (option T)]: a key can be
      present and hold the nil pointer ([Some None]).
    - A Go [error] is the string of its message; [None : option error] is
      the nil error.
    - The gRPC stream is a script: the results that successive calls of
      [Recv] return, the results that successive calls of [Send] return,
      and the requests handed to [Send] so far.
    - The RWMutex of [assignment] is not modelled: the embedding is
      sequential. *)

From stdpp Require Import gmap strings list fin_maps.

#[local] Set Warnings "-clear-no-such-hyp,-notation-for-abbreviation".

Open Scope string_scope.
Open Scope list_scope.

(** ** Constants *)

Definition cdsURL : string := "type.googleapis.com/envoy.api.v2.Cluster".
Definition edsURL : string := "type.googleapis.com/envoy.api.v2.ClusterLoadAssignment".

Definition error : Type := string.

(** ** Messages of the wire schema (go-control-plane), as far as the client
    looks into them. The modules carry the names of the Go packages. *)

Module corepb.
(** The client only ever sets [Id]. *)
Record Node : Type := { Id : string }.
End corepb.

Module any.
(** A type URL and the serialized bytes. *)
Record Any : Type := { TypeUrl : string; Value : list Byte.byte }.
End any.

Module xdspb.
(** The client only reads [GetName()]. *)
Record Cluster : Type := { GetName : string }.

(** An opaque payload for the client: the cluster it belongs to and its
    endpoints, as strings. *)
Record ClusterLoadAssignment : Type :=
  { ClusterName : string; Endpoints : list string }.

Record DiscoveryRequest : Type :=
  { Node : corepb.Node;
    TypeUrl : string;
    ResourceNames : list string;
    VersionInfo : string;
    ResponseNonce : string }.

(** The fields of a response carry the names of the getters through
    which the client reads them. *)
Record DiscoveryResponse : Type :=
  { GetVersionInfo : string;
    GetResources : list any.Any;
    GetTypeUrl : string;
    GetNonce : string }.
End xdspb.

(** proto.Message behind ptypes.DynamicAny: the dynamic type of the message
    that [ptypes.UnmarshalAny] produced. *)
Inductive Message : Type :=
| MsgCluster (c : xdspb.Cluster)
| MsgClusterLoadAssignment (m : xdspb.ClusterLoadAssignment)
| MsgOther (fullName : string).

(** ** The resource store: type assignment *)

(** [version] is declared and never used by the code. The methods have
    value receivers; the copy shares the map [cla], so a write through the
    copy is a write to the client's store: each method takes the store and
    the mutating one returns it. The map is the one [New] makes, never the
    nil map. *)
Record assignment : Type :=
  { cla : gmap string (option xdspb.ClusterLoadAssignment);
    version : Z }.

Definition with_cla (a : assignment)
    (m : gmap string (option xdspb.ClusterLoadAssignment)) : assignment :=
  {| cla := m; version := version a |}.

Definition SetClusterLoadAssignment (a : assignment) (cluster : string)
    (v : option xdspb.ClusterLoadAssignment) : assignment :=
  match cla a !! cluster with
  | None => with_cla a (<[cluster := v]> (cla a))
  | Some _ =>
      match v with
      | None => a
      | Some _ => with_cla a (<[cluster := v]> (cla a))
      end
  end.

(** The body is [return nil]: the store is not consulted. *)
Definition ClusterLoadAssignment (a : assignment) (cluster : string)
    : option xdspb.ClusterLoadAssignment :=
  None.

(** Go leaves the order of [range] over a map unspecified; the keys come
    here in the order of [map_to_list], and the properties below speak of
    the set of the returned names only. *)
Definition Clusters (a : assignment) : list string :=
  (map_to_list (cla a)).*1.

(** ** The client *)

(** [cc], [ctx] and [cancel] belong to the transport and are left out. *)
Record Client : Type :=
  { assignments : assignment;
    node : corepb.Node }.

(** [grpc.Dial] is the transport's: [Dial addr] is the error it returns,
    if any. The parameter [node] is not used by the body. *)
Definition New (Dial : string → option error) (addr node : string)
    : Client + error :=
  match Dial addr with
  | Some err => inr err
  | None =>
      inl {| node := {| corepb.Id := "test-id" |};
             assignments := {| cla := ∅; version := 0 |} |}
  end.

(** ** The stream *)

Inductive RecvResult : Type :=
| RecvOk (resp : xdspb.DiscoveryResponse)
| RecvErr (err : error).

(** [recvResults]: what the coming calls of [Recv] return, in order; when
    it is empty [Recv] blocks. [sendResults]: what the coming calls of
    [Send] return; when it is empty [Send] succeeds. [sent]: the requests
    handed to [Send] so far, oldest first. *)
Record adsStream : Type :=
  { recvResults : list RecvResult;
    sendResults : list (option error);
    sent : list xdspb.DiscoveryRequest }.

Definition Send (stream : adsStream) (req : xdspb.DiscoveryRequest)
    : option error * adsStream :=
  match sendResults stream with
  | [] =>
      (None, {| recvResults := recvResults stream;
                sendResults := [];
                sent := sent stream ++ [req] |})
  | r :: rs =>
      (r, {| recvResults := recvResults stream;
             sendResults := rs;
             sent := sent stream ++ [req] |})
  end.

Definition ClusterDiscovery (c : Client) (stream : adsStream)
    (version nonce : string) (clusters : list string)
    : option error * adsStream :=
  let req := {| xdspb.Node := node c;
                xdspb.TypeUrl := cdsURL;
                xdspb.ResourceNames := clusters;
                xdspb.VersionInfo := version;
                xdspb.ResponseNonce := nonce |} in
  Send stream req.

Definition EndpointDiscovery (c : Client) (stream : adsStream)
    (version nonce : string) (clusters : list string)
    : option error * adsStream :=
  let req := {| xdspb.Node := node c;
                xdspb.TypeUrl := edsURL;
                xdspb.ResourceNames := clusters;
                xdspb.VersionInfo := version;
                xdspb.ResponseNonce := nonce |} in
  Send stream req.

(** ** What the loop writes: println and the plugin logger *)

(** One entry per call, with the format string and the argument of the
    call. *)
Inductive Output : Type :=
| Println (text : string) (n : option nat)
| Debug (format : string) (arg : nat)
| Warningf (format : string) (arg : string).

(** ** The receive loop *)

(** The state the loop works on: the client (its store is written through
    [c.assignments]), the stream and what has been written out. *)
Record State : Type :=
  { client : Client;
    stream : adsStream;
    output : list Output }.

(** How a run of [Receive] ends: it returns the error of [Recv], or it is
    waiting in [Recv] for a response that the script does not hold. *)
Inductive Outcome : Type :=
| Returned (err : error) (st : State)
| Waiting (st : State).

Definition finalState (o : Outcome) : State :=
  match o with
  | Returned _ st => st
  | Waiting st => st
  end.

Definition withAssignments (c : Client) (a : assignment) : Client :=
  {| assignments := a; node := node c |}.

Definition withRecvResults (s : adsStream) (rs : list RecvResult) : adsStream :=
  {| recvResults := rs; sendResults := sendResults s; sent := sent s |}.

Definition setRecv (rs : list RecvResult) (st : State) : State :=
  {| client := client st;
     stream := withRecvResults (stream st) rs;
     output := output st |}.

Definition warnOnError (format : string) (err : option error)
    (out : list Output) : list Output :=
  match err with
  | Some e => out ++ [Warningf format e]
  | None => out
  end.

Section Receive.

(** [ptypes.UnmarshalAny] belongs to the protobuf library: the message
    it decodes from a resource, or its error. *)
Variable UnmarshalAny : any.Any → Message + error.

(** The body of the loop over [resp.GetResources()] in the CDS case. *)
Definition cdsResource (a : assignment) (r : any.Any) : assignment :=
  match UnmarshalAny r with
  | inr _ => a
  | inl (MsgCluster cluster) =>
      SetClusterLoadAssignment a (xdspb.GetName cluster) None
  | inl _ => a
  end.

(** The switch on [resp.GetTypeUrl()]: one turn of the loop after a
    successful [Recv]. *)
Definition dispatch (st : State) (resp : xdspb.DiscoveryResponse) : State :=
  let c := client st in
  if decide (xdspb.GetTypeUrl resp = cdsURL) then
    let a := foldl cdsResource (assignments c) (xdspb.GetResources resp) in
    let c := withAssignments c a in
    let n := length (xdspb.GetResources resp) in
    let out := output st ++
               [Println "HERER" (Some n);
                Debug "Cluster discovery processed with %d resources" n] in
    let '(err, stream) :=
      ClusterDiscovery c (stream st) (xdspb.GetVersionInfo resp)
                       (xdspb.GetNonce resp) (Clusters (assignments c)) in
    let out := warnOnError "Failed to acknowledge cluster discovery: %s" err out in
    let '(err, stream) :=
      EndpointDiscovery c stream "" "" (Clusters (assignments c)) in
    let out := warnOnError "Failed to perform endpoint discovery: %s" err out in
    {| client := c; stream := stream; output := out |}
  else if decide (xdspb.GetTypeUrl resp = edsURL) then
    {| client := c; stream := stream st;
       output := output st ++ [Println "EDS" None] |}
  else
    {| client := c; stream := stream st;
       output := output st ++
                 [Warningf "Unknown response URL for discovery: %q"
                           (xdspb.GetTypeUrl resp)] |}.

(** [for { resp, err := stream.Recv(); ... }] over the results that
    [Recv] has in store. *)
Fixpoint Receive_loop (inbound : list RecvResult) (st : State) : Outcome :=
  match inbound with
  | [] => Waiting st
  | r :: rest =>
      match r with
      | RecvErr err => Returned err (setRecv rest st)
      | RecvOk resp => Receive_loop rest (dispatch (setRecv rest st) resp)
      end
  end.

Definition Receive (c : Client) (stream : adsStream) (out : list Output)
    : Outcome :=
  Receive_loop (recvResults stream)
               {| client := c; stream := stream; output := out |}.

(** The name under which a resource of a Cluster-type response is
    recorded: it decodes, and to a Cluster. *)
Definition unpackCluster (r : any.Any) : option string :=
  match UnmarshalAny r with
  | inl (MsgCluster cluster) => Some (xdspb.GetName cluster)
  | _ => None
  end.

(** The names a response brings to the store. *)
Definition unpackedNames (resp : xdspb.DiscoveryResponse) : list string :=
  if decide (xdspb.GetTypeUrl resp = cdsURL)
  then omap unpackCluster (xdspb.GetResources resp)
  else [].

End Receive.

(** ** A decoder for the examples *)

(** Decodes by the type URL of the resource and reads the bytes as the
    name of the cluster; a resource without bytes does not decode. *)
Definition exampleUnmarshalAny (r : any.Any) : Message + error :=
  match any.Value r with
  | [] => inr "unexpected EOF"
  | bs =>
      let name := String.string_of_list_byte bs in
      if decide (any.TypeUrl r = cdsURL) then
        inl (MsgCluster {| xdspb.GetName := name |})
      else if decide (any.TypeUrl r = edsURL) then
        inl (MsgClusterLoadAssignment
               {| xdspb.ClusterName := name; xdspb.Endpoints := [] |})
      else inl (MsgOther (any.TypeUrl r))
  end.

Definition clusterResource (name : string) : any.Any :=
  {| any.TypeUrl := cdsURL; any.Value := String.list_byte_of_string name |}.

Definition malformedResource : any.Any :=
  {| any.TypeUrl := cdsURL; any.Value := [] |}.

Definition otherResource : any.Any :=
  {| any.TypeUrl := "type.googleapis.com/envoy.api.v2.Listener";
     any.Value := String.list_byte_of_string "l" |}.

Definition exampleClient : Client :=
  {| node := {| corepb.Id := "test-id" |};
     assignments := {| cla := ∅; version := 0 |} |}.

Definition emptyStream (rs : list RecvResult) (ss : list (option error))
    : adsStream :=
  {| recvResults := rs; sendResults := ss; sent := [] |}.

Definition cdsResponse (v n : string) (rs : list any.Any)
    : xdspb.DiscoveryResponse :=
  {| xdspb.GetVersionInfo := v; xdspb.GetResources := rs;
     xdspb.GetTypeUrl := cdsURL; xdspb.GetNonce := n |}.

Definition edsResponse (v n : string) (rs : list any.Any)
    : xdspb.DiscoveryResponse :=
  {| xdspb.GetVersionInfo := v; xdspb.GetResources := rs;
     xdspb.GetTypeUrl := edsURL; xdspb.GetNonce := n |}.

Definition assignmentResource (name : string) : any.Any :=
  {| any.TypeUrl := edsURL; any.Value := String.list_byte_of_string name |}.

Definition exampleAssignment : xdspb.ClusterLoadAssignment :=
  {| xdspb.ClusterName := "a"; xdspb.Endpoints := ["1.2.3.4:80"] |}.

Definition noDialError (addr : string) : option error := None.

(** The two requests that follow a Cluster-type response, and the test
    for such a response. *)
Definition ackRequest (c : Client) (resp : xdspb.DiscoveryResponse)
    : xdspb.DiscoveryRequest :=
  {| xdspb.Node := node c;
     xdspb.TypeUrl := cdsURL;
     xdspb.ResourceNames := Clusters (assignments c);
     xdspb.VersionInfo := xdspb.GetVersionInfo resp;
     xdspb.ResponseNonce := xdspb.GetNonce resp |}.

Definition edsRequest (c : Client) : xdspb.DiscoveryRequest :=
  {| xdspb.Node := node c;
     xdspb.TypeUrl := edsURL;
     xdspb.ResourceNames := Clusters (assignments c);
     xdspb.VersionInfo := "";
     xdspb.ResponseNonce := "" |}.

Definition isCDS (resp : xdspb.DiscoveryResponse) : bool :=
  bool_decide (xdspb.GetTypeUrl resp = cdsURL).

(** A store in which cluster "a" has an assignment on record. *)
Definition knownStore : assignment :=
  SetClusterLoadAssignment (assignments exampleClient) "a"
                           (Some exampleAssignment).

Definition exampleResponses : list xdspb.DiscoveryResponse :=
  [cdsResponse "1" "n1"
     [clusterResource "a"; malformedResource; otherResource;
      clusterResource "b"];
   cdsResponse "2" "n2" [clusterResource "a"]].

Definition unknownResponse : xdspb.DiscoveryResponse :=
  {| xdspb.GetVersionInfo := "1"; xdspb.GetResources := [otherResource];
     xdspb.GetTypeUrl := "type.googleapis.com/envoy.api.v2.Listener";
     xdspb.GetNonce := "n1" |}.

(** The state in which a run of [Receive] from [exampleClient] ends, with
    the decoder of the examples and a [Send] that succeeds. *)
Definition exampleRun (rs : list RecvResult) : State :=
  finalState (Receive exampleUnmarshalAny exampleClient (emptyStream rs []) []).

(** The responses that [Recv] delivers before its first error, and the
    results it still holds once [Receive] is through with the script. *)
Fixpoint delivered (rs : list RecvResult) : list xdspb.DiscoveryResponse :=
  match rs with
  | RecvOk resp :: rest => resp :: delivered rest
  | _ => []
  end.

Fixpoint undelivered (rs : list RecvResult) : list RecvResult :=
  match rs with
  | RecvOk _ :: rest => undelivered rest
  | RecvErr _ :: rest => rest
  | [] => []
  end.

(** A store with three clusters: "a" with an assignment, "b" and "c"
    without. *)
Definition threeClusters : assignment :=
  SetClusterLoadAssignment
    (SetClusterLoadAssignment knownStore "b" None) "c" None.

(** Reading what the loop wrote: the type URL of a warning about an
    unknown response, and the error of a warning about a failed [Send]. *)
Definition unknownURL (o : Output) : option string :=
  match o with
  | Warningf format arg =>
      if decide (format = "Unknown response URL for discovery: %q")
      then Some arg else None
  | _ => None
  end.

Definition sendFailure (o : Output) : option error :=
  match o with
  | Warningf format arg =>
      if decide (format = "Failed to acknowledge cluster discovery: %s"
                 ∨ format = "Failed to perform endpoint discovery: %s")
      then Some arg else None
  | _ => None
  end.

Definition isUnknown (resp : xdspb.DiscoveryResponse) : bool :=
  bool_decide (xdspb.GetTypeUrl resp ≠ cdsURL ∧ xdspb.GetTypeUrl resp ≠ edsURL).

(** The Cluster-type responses among those that [Recv] delivers. *)
Definition cdsDelivered (rs : list RecvResult) : list xdspb.DiscoveryResponse :=
  filter (λ r, isCDS r = true) (delivered rs).

(** * Properties *)

(** ** The store *)

Lemma cla_with_cla a m : cla (with_cla a m) = m.
Proof. reflexivity. Qed.

Lemma SetClusterLoadAssignment_absent a cluster v :
  cla a !! cluster = None →
  SetClusterLoadAssignment a cluster v = with_cla a (<[cluster := v]> (cla a)).
Proof. intros H. unfold SetClusterLoadAssignment. by rewrite H. Qed.

Lemma SetClusterLoadAssignment_known_nil a cluster :
  is_Some (cla a !! cluster) →
  SetClusterLoadAssignment a cluster None = a.
Proof. intros [old H]. unfold SetClusterLoadAssignment. by rewrite H. Qed.

Lemma SetClusterLoadAssignment_nonnil a cluster x :
  SetClusterLoadAssignment a cluster (Some x)
  = with_cla a (<[cluster := Some x]> (cla a)).
Proof. unfold SetClusterLoadAssignment. by destruct (cla a !! cluster). Qed.

Lemma SetClusterLoadAssignment_other a cluster v other :
  other ≠ cluster →
  cla (SetClusterLoadAssignment a cluster v) !! other = cla a !! other.
Proof.
  intros Hne. unfold SetClusterLoadAssignment.
  destruct (cla a !! cluster) as [old|]; [destruct v|]; simpl;
    rewrite ?lookup_insert_ne; done.
Qed.

Lemma SetClusterLoadAssignment_version a cluster v :
  version (SetClusterLoadAssignment a cluster v) = version a.
Proof.
  unfold SetClusterLoadAssignment.
  by destruct (cla a !! cluster) as [old|]; [destruct v|].
Qed.

Lemma SetClusterLoadAssignment_dom a cluster v :
  dom (cla (SetClusterLoadAssignment a cluster v)) = {[cluster]} ∪ dom (cla a).
Proof.
  unfold SetClusterLoadAssignment.
  destruct (cla a !! cluster) as [old|] eqn:E; [destruct v|]; simpl;
    rewrite ?dom_insert_L; [done| |done].
  assert (cluster ∈ dom (cla a)) by (apply elem_of_dom; eauto).
  set_solver.
Qed.

Lemma Clusters_set a : list_to_set (Clusters a) = dom (cla a).
Proof. unfold Clusters. apply leibniz_equiv. by rewrite <- dom_alt. Qed.

Lemma Clusters_NoDup a : NoDup (Clusters a).
Proof. apply NoDup_fst_map_to_list. Qed.

Lemma elem_of_Clusters a cluster :
  cluster ∈ Clusters a ↔ is_Some (cla a !! cluster).
Proof.
  rewrite <- elem_of_dom, <- Clusters_set. by rewrite elem_of_list_to_set.
Qed.

(** C3. [SetClusterLoadAssignment] records a cluster that is absent with
    the assignment given, nil or not; leaves the whole store as it is when
    the cluster is present and the assignment given is nil; and stores an
    assignment that is not nil over whatever was there. So a nil
    assignment for a known cluster keeps the assignment recorded before.
    No other cluster and no other field of the store is touched. *)
Theorem SetClusterLoadAssignment_semantics
    (a : assignment) (cluster : string)
    (v : option xdspb.ClusterLoadAssignment) :
  (cla a !! cluster = None →
     cla (SetClusterLoadAssignment a cluster v) !! cluster = Some v) ∧
  (is_Some (cla a !! cluster) → v = None →
     SetClusterLoadAssignment a cluster v = a) ∧
  (∀ x, v = Some x →
     cla (SetClusterLoadAssignment a cluster v) !! cluster = Some (Some x)) ∧
  (∀ x, cla a !! cluster = Some (Some x) →
     cla (SetClusterLoadAssignment a cluster None) !! cluster = Some (Some x)) ∧
  (∀ other, other ≠ cluster →
     cla (SetClusterLoadAssignment a cluster v) !! other = cla a !! other) ∧
  version (SetClusterLoadAssignment a cluster v) = version a.
Proof.
  repeat split.
  - intros H. rewrite SetClusterLoadAssignment_absent by done.
    simpl. apply lookup_insert_eq.
  - intros H ->. by apply SetClusterLoadAssignment_known_nil.
  - intros x ->. rewrite SetClusterLoadAssignment_nonnil.
    simpl. apply lookup_insert_eq.
  - intros x H. rewrite SetClusterLoadAssignment_known_nil; eauto.
  - intros other Hne. by apply SetClusterLoadAssignment_other.
  - apply SetClusterLoadAssignment_version.
Qed.

(** ** One response *)

Section Dispatch.

Variable UnmarshalAny : any.Any → Message + error.


Lemma cdsResource_unpack a r :
  cdsResource UnmarshalAny a r =
  match unpackCluster UnmarshalAny r with
  | Some name => SetClusterLoadAssignment a name None
  | None => a
  end.
Proof.
  unfold cdsResource, unpackCluster.
  by destruct (UnmarshalAny r) as [[]|].
Qed.

(** Resources that do not unpack leave no trace: the loop over the
    resources is the loop over the names that unpack. *)
Lemma foldl_cdsResource a rs :
  foldl (cdsResource UnmarshalAny) a rs =
  foldl (λ a name, SetClusterLoadAssignment a name None) a (omap (unpackCluster UnmarshalAny) rs).
Proof.
  revert a. induction rs as [|r rs IH]; intros a; [done|].
  simpl. rewrite IH, cdsResource_unpack.
  by destruct (unpackCluster UnmarshalAny r).
Qed.

Lemma foldl_Set_nil_dom a names :
  dom (cla (foldl (λ a name, SetClusterLoadAssignment a name None) a names))
  = dom (cla a) ∪ list_to_set names.
Proof.
  revert a. induction names as [|n names IH]; intros a; simpl.
  - set_solver.
  - rewrite IH, SetClusterLoadAssignment_dom. set_solver.
Qed.

Lemma foldl_Set_nil_known a names k :
  is_Some (cla a !! k) →
  cla (foldl (λ a name, SetClusterLoadAssignment a name None) a names) !! k
  = cla a !! k.
Proof.
  revert a. induction names as [|n names IH]; intros a Hk; [done|].
  simpl. destruct (decide (n = k)) as [->|Hne].
  - by rewrite SetClusterLoadAssignment_known_nil, IH.
  - rewrite IH; rewrite SetClusterLoadAssignment_other; done.
Qed.

Lemma foldl_Set_nil_fresh a names k :
  k ∈ names → cla a !! k = None →
  cla (foldl (λ a name, SetClusterLoadAssignment a name None) a names) !! k
  = Some None.
Proof.
  revert a. induction names as [|n names IH]; intros a Hin Hk.
  - by apply elem_of_nil in Hin.
  - simpl. destruct (decide (n = k)) as [->|Hne].
    + rewrite foldl_Set_nil_known;
        rewrite SetClusterLoadAssignment_absent by done; simpl;
        rewrite lookup_insert_eq; eauto.
    + apply elem_of_cons in Hin as [->|Hin]; [done|].
      apply IH; [done|]. by rewrite SetClusterLoadAssignment_other.
Qed.

Lemma foldl_Set_nil_size a names :
  NoDup names → (∀ n, n ∈ names → cla a !! n = None) →
  size (cla (foldl (λ a name, SetClusterLoadAssignment a name None) a names))
  = size (cla a) + length names.
Proof.
  revert a. induction names as [|n names IH]; intros a Hnd Hfresh; simpl.
  - lia.
  - apply NoDup_cons in Hnd as [Hn Hnd].
    rewrite IH; [|done|].
    + rewrite SetClusterLoadAssignment_absent by (apply Hfresh; left).
      simpl. rewrite map_size_insert_None by (apply Hfresh; left). lia.
    + intros m Hm. rewrite SetClusterLoadAssignment_other by set_solver.
      apply Hfresh. by right.
Qed.

(** What the CDS case of [dispatch] amounts to. *)
Lemma dispatch_cds st resp :
  xdspb.GetTypeUrl resp = cdsURL →
  let c := withAssignments (client st)
             (foldl (cdsResource UnmarshalAny) (assignments (client st))
                    (xdspb.GetResources resp)) in
  let n := length (xdspb.GetResources resp) in
  client (dispatch UnmarshalAny st resp) = c ∧
  sent (stream (dispatch UnmarshalAny st resp))
    = sent (stream st) ++ [ackRequest c resp; edsRequest c] ∧
  sendResults (stream (dispatch UnmarshalAny st resp)) = drop 2 (sendResults (stream st)) ∧
  recvResults (stream (dispatch UnmarshalAny st resp)) = recvResults (stream st) ∧
  output (dispatch UnmarshalAny st resp)
    = warnOnError "Failed to perform endpoint discovery: %s"
        (default None (sendResults (stream st) !! 1))
        (warnOnError "Failed to acknowledge cluster discovery: %s"
           (default None (sendResults (stream st) !! 0))
           (output st ++
              [Println "HERER" (Some n);
               Debug "Cluster discovery processed with %d resources" n])).
Proof.
  intros Hcds. unfold dispatch.
  rewrite decide_True by done.
  unfold ClusterDiscovery, EndpointDiscovery, Send.
  destruct (sendResults (stream st)) as [|r1 [|r2 ss]]; simpl;
    rewrite <- ?app_assoc; done.
Qed.

Lemma cdsURL_ne_edsURL : cdsURL ≠ edsURL.
Proof. discriminate. Qed.

Lemma dispatch_eds st resp :
  xdspb.GetTypeUrl resp = edsURL →
  dispatch UnmarshalAny st resp
  = {| client := client st; stream := stream st;
       output := output st ++ [Println "EDS" None] |}.
Proof.
  intros Heds. unfold dispatch.
  rewrite decide_False by (rewrite Heds; by intros ?%symmetry%cdsURL_ne_edsURL).
  by rewrite decide_True.
Qed.

Lemma dispatch_unknown st resp :
  xdspb.GetTypeUrl resp ≠ cdsURL →
  xdspb.GetTypeUrl resp ≠ edsURL →
  dispatch UnmarshalAny st resp
  = {| client := client st; stream := stream st;
       output := output st ++
                 [Warningf "Unknown response URL for discovery: %q"
                           (xdspb.GetTypeUrl resp)] |}.
Proof.
  intros H1 H2. unfold dispatch.
  by rewrite !decide_False.
Qed.

(** [dispatch] neither reads nor writes what [Recv] has in store. *)
Lemma dispatch_setRecv rs st resp :
  dispatch UnmarshalAny (setRecv rs st) resp = setRecv rs (dispatch UnmarshalAny st resp).
Proof.
  unfold dispatch, setRecv.
  repeat case_decide; try done.
  unfold ClusterDiscovery, EndpointDiscovery, Send. simpl.
  by destruct (sendResults (stream st)) as [|r1 [|r2 ss]].
Qed.

Lemma dispatch_node st resp :
  node (client (dispatch UnmarshalAny st resp)) = node (client st).
Proof.
  destruct (decide (xdspb.GetTypeUrl resp = cdsURL)) as [Hc|Hc].
  - by destruct (dispatch_cds st resp Hc) as (-> & _).
  - destruct (decide (xdspb.GetTypeUrl resp = edsURL)) as [He|He].
    + by rewrite dispatch_eds.
    + by rewrite dispatch_unknown.
Qed.

Lemma dispatch_dom st resp :
  dom (cla (assignments (client (dispatch UnmarshalAny st resp))))
  = dom (cla (assignments (client st))) ∪ list_to_set (unpackedNames UnmarshalAny resp).
Proof.
  unfold unpackedNames.
  destruct (decide (xdspb.GetTypeUrl resp = cdsURL)) as [Hc|Hc].
  - destruct (dispatch_cds st resp Hc) as (-> & _). simpl.
    by rewrite foldl_cdsResource, foldl_Set_nil_dom.
  - destruct (decide (xdspb.GetTypeUrl resp = edsURL)) as [He|He].
    + rewrite dispatch_eds by done. simpl. set_solver.
    + rewrite dispatch_unknown by done. simpl. set_solver.
Qed.


(** ** The loop *)

Lemma setRecv_setRecv rs rs' st : setRecv rs (setRecv rs' st) = setRecv rs st.
Proof. reflexivity. Qed.

Lemma setRecv_id st : setRecv (recvResults (stream st)) st = st.
Proof. by destruct st as [c [] out]. Qed.

Lemma foldl_dispatch_setRecv rs st resps :
  foldl (dispatch UnmarshalAny) (setRecv rs st) resps
  = setRecv rs (foldl (dispatch UnmarshalAny) st resps).
Proof.
  revert st. induction resps as [|resp resps IH]; intros st; [done|].
  simpl. by rewrite dispatch_setRecv, IH.
Qed.

(** A run of the loop over responses that [Recv] delivers is the fold of
    [dispatch] over them; the loop then goes on with what follows. *)
Lemma Receive_loop_responses resps tail st :
  recvResults (stream st) = (RecvOk <$> resps) ++ tail →
  Receive_loop UnmarshalAny ((RecvOk <$> resps) ++ tail) st
  = Receive_loop UnmarshalAny tail
      (setRecv tail (foldl (dispatch UnmarshalAny) st resps)).
Proof.
  revert st. induction resps as [|resp resps IH]; intros st Hst; simpl in *.
  - by rewrite <- Hst, setRecv_id.
  - rewrite IH by (by rewrite dispatch_setRecv).
    by rewrite dispatch_setRecv, foldl_dispatch_setRecv, setRecv_setRecv.
Qed.

Lemma foldl_dispatch_node st resps :
  node (client (foldl (dispatch UnmarshalAny) st resps)) = node (client st).
Proof.
  revert st. induction resps as [|resp resps IH]; intros st; [done|].
  simpl. by rewrite IH, dispatch_node.
Qed.

Lemma foldl_dispatch_dom st resps :
  dom (cla (assignments (client (foldl (dispatch UnmarshalAny) st resps))))
  = dom (cla (assignments (client st)))
    ∪ list_to_set (resps ≫= unpackedNames UnmarshalAny).
Proof.
  revert st. induction resps as [|resp resps IH]; intros st; simpl.
  - set_solver.
  - rewrite IH, dispatch_dom, list_to_set_app_L. set_solver.
Qed.


(** The names in the store after a run do not depend on the order of the
    responses nor on how often a response comes. *)
Lemma foldl_dispatch_dom_perm st resps resps' :
  (∀ resp, resp ∈ resps ↔ resp ∈ resps') →
  dom (cla (assignments (client (foldl (dispatch UnmarshalAny) st resps))))
  = dom (cla (assignments (client (foldl (dispatch UnmarshalAny) st resps')))).
Proof.
  intros Hsame. rewrite !foldl_dispatch_dom. f_equal.
  apply set_eq. intros name.
  rewrite !elem_of_list_to_set, !list_elem_of_bind.
  by setoid_rewrite Hsame.
Qed.

Lemma length_omap_filter {A B} (f : A → option B) (l : list A) :
  length (omap f l) + length (filter (λ x, f x = None) l) = length l.
Proof.
  induction l as [|x l IH]; [done|].
  rewrite filter_cons. simpl. destruct (f x) as [y|] eqn:E.
  - rewrite decide_False by done. simpl. f_equal. exact IH.
  - rewrite decide_True by done. simpl. rewrite Nat.add_succ_r.
    f_equal. exact IH.
Qed.

(** ** The behaviour of the receive loop *)

(** C2. A client made by [New] that receives Cluster-type responses, as
    many as one likes and whatever [Send] returns: the loop processes them
    all, and [Clusters] then returns, without repetition, exactly the names
    that were unpacked from a resource of one of the responses. The names
    form a set: how often and in which response a name came does not
    matter. *)
Theorem Clusters_after_cds_responses
    (Dial : string → option error) (addr nodeID : string) (c : Client)
    (resps : list xdspb.DiscoveryResponse) (s : adsStream)
    (out : list Output) :
  New Dial addr nodeID = inl c →
  Forall (λ resp, xdspb.GetTypeUrl resp = cdsURL) resps →
  recvResults s = RecvOk <$> resps →
  ∃ st, Receive UnmarshalAny c s out = Waiting st ∧
        recvResults (stream st) = [] ∧
        NoDup (Clusters (assignments (client st))) ∧
        ∀ name, name ∈ Clusters (assignments (client st)) ↔
                ∃ resp r, resp ∈ resps ∧ r ∈ xdspb.GetResources resp ∧
                          unpackCluster UnmarshalAny r = Some name.
Proof.
  intros Hnew Hcds Hs. unfold Receive.
  pose proof (Receive_loop_responses resps []
    {| client := c; stream := s; output := out |}) as Hrun.
  rewrite !app_nil_r in Hrun. rewrite Hs, (Hrun Hs). simpl.
  eexists. split; [done|]. split; [done|]. split; [apply Clusters_NoDup|].
  intros name. rewrite <- (elem_of_list_to_set (C:=gset string)), Clusters_set.
  simpl.
  rewrite foldl_dispatch_dom. simpl.
  unfold New in Hnew. destruct (Dial addr); [done|].
  injection Hnew as <-. simpl. rewrite dom_empty_L.
  rewrite elem_of_union, elem_of_list_to_set, list_elem_of_bind.
  split.
  - intros [[]%elem_of_empty|(resp & Hin & Hresp)].
    unfold unpackedNames in Hin. case_decide; [|by apply elem_of_nil in Hin].
    apply list_elem_of_omap in Hin as (r & Hr & Hname). eauto.
  - intros (resp & r & Hresp & Hr & Hname). right. exists resp. split; [|done].
    unfold unpackedNames.
    rewrite decide_True by (by eapply Forall_forall in Hcds).
    apply list_elem_of_omap. eauto.
Qed.

(** C5. A Cluster-type response is followed by two requests and no more:
    first the Cluster-type request that carries the version and the nonce
    of the response and names the clusters the store holds once the
    resources of the response are in, then the Endpoint-type request that
    names the same clusters. Both are handed to [Send] whatever [Send]
    returns, and the loop goes on with the next result of [Recv]. *)
Theorem Receive_cds_follow_ups
    (c : Client) (s : adsStream) (out : list Output)
    (resp : xdspb.DiscoveryResponse) (rest : list RecvResult) :
  xdspb.GetTypeUrl resp = cdsURL →
  recvResults s = RecvOk resp :: rest →
  let st := dispatch UnmarshalAny
              {| client := c; stream := withRecvResults s rest; output := out |}
              resp in
  Receive UnmarshalAny c s out = Receive_loop UnmarshalAny rest st ∧
  ∃ ack eds,
    sent (stream st) = sent s ++ [ack; eds] ∧
    xdspb.TypeUrl ack = cdsURL ∧
    xdspb.VersionInfo ack = xdspb.GetVersionInfo resp ∧
    xdspb.ResponseNonce ack = xdspb.GetNonce resp ∧
    list_to_set (xdspb.ResourceNames ack) = dom (cla (assignments (client st))) ∧
    NoDup (xdspb.ResourceNames ack) ∧
    xdspb.TypeUrl eds = edsURL ∧
    list_to_set (xdspb.ResourceNames eds) = dom (cla (assignments (client st))) ∧
    NoDup (xdspb.ResourceNames eds).
Proof.
  intros Hcds Hs st. split.
  - unfold Receive. by rewrite Hs.
  - destruct (dispatch_cds
      {| client := c; stream := withRecvResults s rest; output := out |}
      resp Hcds) as (Hc & Hsent & _).
    fold st in Hc, Hsent. simpl in Hc, Hsent.
    eexists _, _. split; [exact Hsent|]. rewrite Hc. simpl.
    rewrite !Clusters_set. repeat split; auto using Clusters_NoDup.
Qed.

(** C6. In a Cluster-type response the resources that do not unpack to a
    Cluster are passed over and the others are recorded: the store after
    the response is the store after recording, in their order, the names
    that unpack; its names are the former names and these; a cluster known
    before keeps its entry; when the names that unpack are new and
    distinct the store grows by their number. The resources that unpack
    and those that do not add up to all the resources, the two follow-up
    requests are sent, and the loop goes on with the next result of
    [Recv]. *)
Theorem Receive_cds_skips_malformed
    (st : State) (resp : xdspb.DiscoveryResponse) (rest : list RecvResult) :
  xdspb.GetTypeUrl resp = cdsURL →
  let rs := xdspb.GetResources resp in
  let valid := omap (unpackCluster UnmarshalAny) rs in
  let malformed := filter (λ r, unpackCluster UnmarshalAny r = None) rs in
  let a := assignments (client st) in
  let a' := assignments (client (dispatch UnmarshalAny st resp)) in
  a' = foldl (λ a name, SetClusterLoadAssignment a name None) a valid ∧
  dom (cla a') = dom (cla a) ∪ list_to_set valid ∧
  (∀ name, is_Some (cla a !! name) → cla a' !! name = cla a !! name) ∧
  (∀ name, name ∈ valid → cla a !! name = None → cla a' !! name = Some None) ∧
  (NoDup valid → (∀ name, name ∈ valid → cla a !! name = None) →
     size (cla a') = size (cla a) + length valid) ∧
  length valid + length malformed = length rs ∧
  length (sent (stream (dispatch UnmarshalAny st resp)))
    = length (sent (stream st)) + 2 ∧
  Receive_loop UnmarshalAny (RecvOk resp :: rest) st
    = Receive_loop UnmarshalAny rest
        (setRecv rest (dispatch UnmarshalAny st resp)).
Proof.
  intros Hcds rs valid malformed a a'.
  destruct (dispatch_cds st resp Hcds) as (Hc & Hsent & _).
  assert (a' = foldl (λ a name, SetClusterLoadAssignment a name None) a valid)
    as Ha'.
  { unfold a'. rewrite Hc. simpl. apply foldl_cdsResource. }
  split; [exact Ha'|]. rewrite Ha'.
  split; [apply foldl_Set_nil_dom|].
  split; [intros name; apply foldl_Set_nil_known|].
  split; [intros name; apply foldl_Set_nil_fresh|].
  split; [apply foldl_Set_nil_size|].
  split; [apply length_omap_filter|].
  split; [by rewrite Hsent, length_app|].
  simpl. by rewrite dispatch_setRecv.
Qed.

(** C7. A response whose type URL is neither the Cluster nor the Endpoint
    one changes neither the client, store included, nor the stream: no
    request is sent. A warning is written, and the loop goes on with the
    next result of [Recv]. *)
Theorem Receive_unknown_type
    (c : Client) (s : adsStream) (out : list Output)
    (resp : xdspb.DiscoveryResponse) (rest : list RecvResult) :
  xdspb.GetTypeUrl resp ≠ cdsURL →
  xdspb.GetTypeUrl resp ≠ edsURL →
  recvResults s = RecvOk resp :: rest →
  let st := {| client := c; stream := withRecvResults s rest; output := out |} in
  client (dispatch UnmarshalAny st resp) = c ∧
  stream (dispatch UnmarshalAny st resp) = withRecvResults s rest ∧
  sent (stream (dispatch UnmarshalAny st resp)) = sent s ∧
  Receive UnmarshalAny c s out
  = Receive UnmarshalAny c (withRecvResults s rest)
      (out ++ [Warningf "Unknown response URL for discovery: %q"
                        (xdspb.GetTypeUrl resp)]).
Proof.
  intros H1 H2 Hs st. unfold st.
  rewrite dispatch_unknown by done. simpl.
  repeat split. unfold Receive. rewrite Hs. simpl.
  by rewrite dispatch_unknown.
Qed.


End Dispatch.

(** ** The properties at concrete inputs *)

Lemma SetClusterLoadAssignment_semantics_witness :
  cla (SetClusterLoadAssignment knownStore "a" None) !! "a"
  = Some (Some exampleAssignment).
Proof.
  destruct (SetClusterLoadAssignment_semantics knownStore "a" None)
    as (_ & _ & _ & Hkeep & _).
  apply Hkeep. vm_compute. reflexivity.
Defined.

Lemma Clusters_after_cds_responses_witness :
  ∃ st,
    Receive exampleUnmarshalAny exampleClient
      (emptyStream (RecvOk <$> exampleResponses) [Some "broken pipe"]) []
    = Waiting st ∧
    recvResults (stream st) = [] ∧
    NoDup (Clusters (assignments (client st))) ∧
    ∀ name, name ∈ Clusters (assignments (client st)) ↔
            ∃ resp r, resp ∈ exampleResponses ∧ r ∈ xdspb.GetResources resp ∧
                      unpackCluster exampleUnmarshalAny r = Some name.
Proof.
  apply (Clusters_after_cds_responses exampleUnmarshalAny noDialError
           "127.0.0.1:18000" "node-1").
  - reflexivity.
  - repeat constructor.
  - reflexivity.
Defined.

Lemma Receive_cds_follow_ups_witness :
  let resp := cdsResponse "1" "n1" [clusterResource "a"; clusterResource "b"] in
  let s := emptyStream [RecvOk resp; RecvErr "EOF"] [] in
  let st := dispatch exampleUnmarshalAny
              {| client := exampleClient;
                 stream := withRecvResults s [RecvErr "EOF"];
                 output := [] |} resp in
  Receive exampleUnmarshalAny exampleClient s []
    = Receive_loop exampleUnmarshalAny [RecvErr "EOF"] st ∧
  ∃ ack eds,
    sent (stream st) = sent s ++ [ack; eds] ∧
    xdspb.TypeUrl ack = cdsURL ∧
    xdspb.VersionInfo ack = "1" ∧
    xdspb.ResponseNonce ack = "n1" ∧
    list_to_set (xdspb.ResourceNames ack) = dom (cla (assignments (client st))) ∧
    NoDup (xdspb.ResourceNames ack) ∧
    xdspb.TypeUrl eds = edsURL ∧
    list_to_set (xdspb.ResourceNames eds) = dom (cla (assignments (client st))) ∧
    NoDup (xdspb.ResourceNames eds).
Proof.
  intros resp s.
  apply (Receive_cds_follow_ups exampleUnmarshalAny exampleClient s [] resp
           [RecvErr "EOF"]); reflexivity.
Defined.

Lemma Receive_cds_skips_malformed_witness :
  let resp := cdsResponse "1" "n1"
                [clusterResource "a"; malformedResource; otherResource;
                 clusterResource "b"] in
  let st := {| client := exampleClient;
               stream := emptyStream [] []; output := [] |} in
  let a' := assignments (client (dispatch exampleUnmarshalAny st resp)) in
  dom (cla a') = dom (cla (assignments exampleClient)) ∪ list_to_set ["a"; "b"] ∧
  size (cla a') = 2.
Proof.
  intros resp st a'.
  destruct (Receive_cds_skips_malformed exampleUnmarshalAny st resp [])
    as (_ & Hdom & _ & _ & Hsize & _).
  - reflexivity.
  - split; [exact Hdom|]. apply Hsize.
    + vm_compute. repeat constructor; set_solver.
    + intros name _. reflexivity.
Defined.

Lemma Receive_unknown_type_witness :
  let s := emptyStream [RecvOk unknownResponse; RecvErr "EOF"] [] in
  let st := {| client := exampleClient;
               stream := withRecvResults s [RecvErr "EOF"]; output := [] |} in
  client (dispatch exampleUnmarshalAny st unknownResponse) = exampleClient ∧
  stream (dispatch exampleUnmarshalAny st unknownResponse)
    = withRecvResults s [RecvErr "EOF"] ∧
  sent (stream (dispatch exampleUnmarshalAny st unknownResponse)) = sent s ∧
  Receive exampleUnmarshalAny exampleClient s []
  = Receive exampleUnmarshalAny exampleClient
      (withRecvResults s [RecvErr "EOF"])
      ([] ++ [Warningf "Unknown response URL for discovery: %q"
                       (xdspb.GetTypeUrl unknownResponse)]).
Proof.
  intros s.
  apply (Receive_unknown_type exampleUnmarshalAny exampleClient s []
           unknownResponse [RecvErr "EOF"]).
  - discriminate.
  - discriminate.
  - reflexivity.
Defined.


(** ** Where the code parts from what is expected of it *)

(** The lookup does not depend on the store. *)
Lemma ClusterLoadAssignment_nil a cluster :
  ClusterLoadAssignment a cluster = None.
Proof. reflexivity. Qed.

(** C1. [ClusterLoadAssignment] returns nil for a cluster whose
    assignment has been recorded: in the store made by recording
    [exampleAssignment] for cluster "a", the map holds the assignment under
    "a" and the lookup of "a" returns nil, as does the lookup of the
    unknown "b". *)
Theorem ClusterLoadAssignment_of_recorded_is_nil :
  cla knownStore !! "a" = Some (Some exampleAssignment) ∧
  ClusterLoadAssignment knownStore "a" = None ∧
  cla knownStore !! "b" = None ∧
  ClusterLoadAssignment knownStore "b" = None.
Proof. vm_compute. repeat split. Qed.

(** An Endpoint-type response only prints: the client, its store included,
    and the stream stay as they are. *)
Lemma Receive_eds_only_prints UnmarshalAny c s out resp rest :
  xdspb.GetTypeUrl resp = edsURL →
  recvResults s = RecvOk resp :: rest →
  Receive UnmarshalAny c s out
  = Receive UnmarshalAny c (withRecvResults s rest)
      (out ++ [Println "EDS" None]).
Proof.
  intros Heds Hs. unfold Receive. rewrite Hs. simpl.
  by rewrite dispatch_eds.
Qed.

(** C4. An Endpoint-type response is dropped: after a Cluster-type
    response with the clusters "a" and "b", an Endpoint-type response with
    version "7" and nonce "n7" that carries an assignment for "a" leaves
    "a" without assignment and sends nothing; the client and the requests
    sent are those of the run without this response. *)
Theorem Receive_eds_response_dropped :
  let cds := cdsResponse "1" "n1" [clusterResource "a"; clusterResource "b"] in
  let eds := edsResponse "7" "n7" [assignmentResource "a"] in
  let st := exampleRun [RecvOk cds; RecvOk eds] in
  exampleUnmarshalAny (assignmentResource "a")
    = inl (MsgClusterLoadAssignment
             {| xdspb.ClusterName := "a"; xdspb.Endpoints := [] |}) ∧
  cla (assignments (client st)) !! "a" = Some None ∧
  client st = client (exampleRun [RecvOk cds]) ∧
  sent (stream st) = sent (stream (exampleRun [RecvOk cds])) ∧
  length (sent (stream st)) = 2 ∧
  Forall (λ req, xdspb.VersionInfo req ≠ "7") (sent (stream st)).
Proof.
  vm_compute. repeat split; repeat constructor; discriminate.
Qed.

(** The node of the client is the node of every request it builds, and
    the loop does not change it. *)
Lemma dispatch_sent_node UnmarshalAny st resp :
  Forall (λ req, xdspb.Node req = node (client st)) (sent (stream st)) →
  Forall (λ req, xdspb.Node req = node (client (dispatch UnmarshalAny st resp)))
         (sent (stream (dispatch UnmarshalAny st resp))).
Proof.
  intros Hall. rewrite dispatch_node.
  destruct (decide (xdspb.GetTypeUrl resp = cdsURL)) as [Hc|Hc].
  - destruct (dispatch_cds UnmarshalAny st resp Hc) as (_ & -> & _).
    apply Forall_app. split; [done|]. by repeat constructor.
  - destruct (decide (xdspb.GetTypeUrl resp = edsURL)) as [He|He].
    + by rewrite dispatch_eds.
    + by rewrite dispatch_unknown.
Qed.

(** X14. A run of [Receive] leaves the node of the client as it is, and
    when the requests sent before the run carry this node, so do all the
    requests sent by the end of the run. *)
Lemma Receive_requests_carry_node UnmarshalAny c s out :
  Forall (λ req, xdspb.Node req = node c) (sent s) →
  let st := finalState (Receive UnmarshalAny c s out) in
  node (client st) = node c ∧
  Forall (λ req, xdspb.Node req = node c) (sent (stream st)).
Proof.
  unfold Receive.
  set (st0 := {| client := c; stream := s; output := out |}).
  change (sent s) with (sent (stream st0)).
  change (node c) with (node (client st0)).
  generalize (recvResults s) as inbound. clearbody st0. intros inbound.
  revert st0. induction inbound as [|r inbound IH]; intros st0 Hall; simpl.
  - done.
  - destruct r as [resp|err]; simpl; [|done].
    destruct (IH (dispatch UnmarshalAny (setRecv inbound st0) resp)) as [Hn Hs].
    + by apply dispatch_sent_node.
    + rewrite dispatch_node in Hn, Hs. simpl in Hn, Hs. done.
Qed.

(** C8. [New] does not use the node identifier it is given: the client
    made for the identifier "node-1" has the node "test-id", and the
    Cluster-type and Endpoint-type requests it builds carry "test-id". *)
Theorem New_ignores_node :
  ∃ c, New noDialError "127.0.0.1:18000" "node-1" = inl c ∧
       corepb.Id (node c) = "test-id" ∧
       corepb.Id (node c) ≠ "node-1" ∧
       (xdspb.Node <$> sent (ClusterDiscovery c (emptyStream [] []) "" "" []).2)
         = [{| corepb.Id := "test-id" |}] ∧
       (xdspb.Node <$> sent (EndpointDiscovery c (emptyStream [] []) "" "" ["a"]).2)
         = [{| corepb.Id := "test-id" |}].
Proof.
  eexists. split; [reflexivity|]. by repeat split.
Qed.

(** * Further properties of the store *)

Lemma with_cla_with_cla a m m' : with_cla (with_cla a m) m' = with_cla a m'.
Proof. reflexivity. Qed.

Lemma with_cla_id a : with_cla a (cla a) = a.
Proof. by destruct a. Qed.

(** X1. Recording the same assignment, nil or not, for the same cluster a
    second time changes nothing. *)
Theorem SetClusterLoadAssignment_idempotent
    (a : assignment) (cluster : string)
    (v : option xdspb.ClusterLoadAssignment) :
  SetClusterLoadAssignment (SetClusterLoadAssignment a cluster v) cluster v
  = SetClusterLoadAssignment a cluster v.
Proof.
  destruct v as [x|].
  - rewrite !SetClusterLoadAssignment_nonnil, with_cla_with_cla. simpl.
    by rewrite insert_insert_eq.
  - apply SetClusterLoadAssignment_known_nil.
    destruct (cla a !! cluster) as [old|] eqn:E.
    + rewrite SetClusterLoadAssignment_known_nil; eauto.
    + rewrite SetClusterLoadAssignment_absent by done. simpl.
      rewrite lookup_insert_eq. eauto.
Qed.

(** X2. Two writes to one cluster: an assignment that is not nil
    overrides whatever the first write left, and a nil assignment after a
    first write leaves what the first write left. *)
Theorem SetClusterLoadAssignment_twice
    (a : assignment) (cluster : string)
    (v : option xdspb.ClusterLoadAssignment)
    (y : xdspb.ClusterLoadAssignment) :
  SetClusterLoadAssignment (SetClusterLoadAssignment a cluster v) cluster (Some y)
  = SetClusterLoadAssignment a cluster (Some y) ∧
  SetClusterLoadAssignment (SetClusterLoadAssignment a cluster v) cluster None
  = SetClusterLoadAssignment a cluster v.
Proof.
  split.
  - rewrite !SetClusterLoadAssignment_nonnil.
    unfold SetClusterLoadAssignment.
    destruct (cla a !! cluster) as [old|]; [destruct v as [x|]|]; simpl;
      rewrite ?with_cla_with_cla, ?insert_insert_eq; done.
  - apply SetClusterLoadAssignment_known_nil.
    unfold SetClusterLoadAssignment.
    destruct (cla a !! cluster) as [old|] eqn:E; [destruct v as [x|]|]; simpl;
      rewrite ?lookup_insert_eq; eauto.
Qed.

(** X3. Writes to two different clusters can be done in either order. *)
Theorem SetClusterLoadAssignment_comm
    (a : assignment) (k1 k2 : string)
    (v1 v2 : option xdspb.ClusterLoadAssignment) :
  k1 ≠ k2 →
  SetClusterLoadAssignment (SetClusterLoadAssignment a k1 v1) k2 v2
  = SetClusterLoadAssignment (SetClusterLoadAssignment a k2 v2) k1 v1.
Proof.
  intros Hne.
  unfold SetClusterLoadAssignment at 1 3.
  rewrite !SetClusterLoadAssignment_other by done.
  unfold SetClusterLoadAssignment.
  destruct (cla a !! k1) as [o1|], (cla a !! k2) as [o2|];
    destruct v1 as [x1|], v2 as [x2|]; simpl;
    rewrite ?with_cla_with_cla; try done;
    by rewrite insert_insert_ne.
Qed.

Lemma SetClusterLoadAssignment_comm_witness :
  SetClusterLoadAssignment
    (SetClusterLoadAssignment (assignments exampleClient) "a"
                              (Some exampleAssignment)) "b" None
  = SetClusterLoadAssignment
      (SetClusterLoadAssignment (assignments exampleClient) "b" None) "a"
      (Some exampleAssignment).
Proof.
  apply (SetClusterLoadAssignment_comm (assignments exampleClient) "a" "b").
  discriminate.
Defined.

Lemma Clusters_length a : length (Clusters a) = size (cla a).
Proof. unfold Clusters. by rewrite length_fmap, length_map_to_list. Qed.

(** X4. [Clusters] returns each key of the map once, the keys that hold
    nil included: a name is in the list exactly when the map has the key,
    no name comes twice, and the list is as long as the map is large; it is
    empty exactly for the empty map. *)
Theorem Clusters_every_key_once (a : assignment) :
  (∀ cluster, cluster ∈ Clusters a ↔ is_Some (cla a !! cluster)) ∧
  NoDup (Clusters a) ∧
  length (Clusters a) = size (cla a) ∧
  (Clusters a = [] ↔ cla a = ∅).
Proof.
  split; [apply elem_of_Clusters|]. split; [apply Clusters_NoDup|].
  pose proof (Clusters_length a) as Hlen.
  split; [done|]. split.
  - intros Hnil. apply map_size_empty_iff. by rewrite <- Hlen, Hnil.
  - intros Hempty. apply nil_length_inv. rewrite Hlen.
    by apply map_size_empty_iff.
Qed.

(** X5. After [SetClusterLoadAssignment] the cluster is listed by
    [Clusters], whatever was written; the names listed are the former ones
    and this one; the list grows by one when the cluster was unknown and
    keeps its length when it was known. *)
Theorem Clusters_after_Set
    (a : assignment) (cluster : string)
    (v : option xdspb.ClusterLoadAssignment) :
  let a' := SetClusterLoadAssignment a cluster v in
  cluster ∈ Clusters a' ∧
  (∀ name, name ∈ Clusters a' ↔ name = cluster ∨ name ∈ Clusters a) ∧
  length (Clusters a')
  = if decide (cluster ∈ Clusters a) then length (Clusters a)
    else S (length (Clusters a)).
Proof.
  intros a'.
  assert (∀ name, name ∈ Clusters a' ↔ name = cluster ∨ name ∈ Clusters a)
    as Hmem.
  { intros name.
    rewrite <- !(elem_of_list_to_set (C:=gset string)), !Clusters_set.
    unfold a'. rewrite SetClusterLoadAssignment_dom. set_solver. }
  split; [apply Hmem; by left|]. split; [exact Hmem|].
  rewrite !Clusters_length.
  case_decide as Hk.
  - apply elem_of_Clusters in Hk. unfold a', SetClusterLoadAssignment.
    destruct Hk as [old Hold]. rewrite Hold.
    destruct v as [x|]; [|done]. simpl.
    by rewrite map_size_insert_Some.
  - rewrite elem_of_Clusters in Hk. apply eq_None_not_Some in Hk.
    unfold a'. rewrite SetClusterLoadAssignment_absent by done. simpl.
    by rewrite map_size_insert_None.
Qed.

(** X6. [New] fails exactly when the dial fails, and then with the error
    of the dial; the client of a successful [New] has an empty store:
    [Clusters] returns no name. *)
Theorem New_result (Dial : string → option error) (addr nodeID : string) :
  (∀ err, Dial addr = Some err ↔ New Dial addr nodeID = inr err) ∧
  (Dial addr = None ↔ ∃ c, New Dial addr nodeID = inl c) ∧
  (∀ c, New Dial addr nodeID = inl c →
        Clusters (assignments c) = [] ∧ cla (assignments c) = ∅).
Proof.
  unfold New. destruct (Dial addr) as [e|]; repeat split;
    try (intros; simplify_eq; done); try (intros [? ?]; done); eauto.
Qed.

Lemma New_result_witness :
  Clusters (assignments exampleClient) = [] ∧
  cla (assignments exampleClient) = ∅.
Proof.
  destruct (New_result noDialError "127.0.0.1:18000" "node-1")
    as (_ & _ & Hfresh).
  apply Hfresh. reflexivity.
Defined.

(** * Further properties of the receive loop *)

Section Loop.

Variable UnmarshalAny : any.Any → Message + error.

Lemma union_nil_entries_lookup
    (m : gmap string (option xdspb.ClusterLoadAssignment))
    (X : gset string) (k : string) :
  (m ∪ gset_to_gmap None X) !! k
  = match m !! k with
    | Some v => Some v
    | None => if decide (k ∈ X) then Some None else None
    end.
Proof.
  rewrite lookup_union, lookup_gset_to_gmap.
  destruct (m !! k) as [v|]; case_decide;
    rewrite ?option_guard_True, ?option_guard_False by done; done.
Qed.

Lemma foldl_Set_nil_cla a names :
  cla (foldl (λ a name, SetClusterLoadAssignment a name None) a names)
  = cla a ∪ gset_to_gmap None (list_to_set names).
Proof.
  apply map_eq. intros k. rewrite union_nil_entries_lookup.
  destruct (cla a !! k) as [v|] eqn:E.
  - rewrite foldl_Set_nil_known by eauto. done.
  - case_decide as Hk.
    + apply foldl_Set_nil_fresh; [|done]. by apply elem_of_list_to_set in Hk.
    + apply not_elem_of_dom. rewrite foldl_Set_nil_dom.
      apply not_elem_of_dom in E. set_solver.
Qed.

Lemma foldl_Set_nil_version a names :
  version (foldl (λ a name, SetClusterLoadAssignment a name None) a names)
  = version a.
Proof.
  revert a. induction names as [|n names IH]; intros a; [done|].
  simpl. by rewrite IH, SetClusterLoadAssignment_version.
Qed.

Lemma foldl_Set_nil_all_known a names :
  (∀ name, name ∈ names → is_Some (cla a !! name)) →
  foldl (λ a name, SetClusterLoadAssignment a name None) a names = a.
Proof.
  induction names as [|n names IH]; intros Hknown; [done|].
  simpl. rewrite SetClusterLoadAssignment_known_nil by (apply Hknown; left).
  apply IH. intros name Hname. apply Hknown. by right.
Qed.

Lemma dispatch_assignments st resp :
  assignments (client (dispatch UnmarshalAny st resp))
  = foldl (λ a name, SetClusterLoadAssignment a name None)
          (assignments (client st)) (unpackedNames UnmarshalAny resp).
Proof.
  unfold unpackedNames.
  destruct (decide (xdspb.GetTypeUrl resp = cdsURL)) as [Hc|Hc].
  - destruct (dispatch_cds UnmarshalAny st resp Hc) as (-> & _). simpl.
    apply foldl_cdsResource.
  - destruct (decide (xdspb.GetTypeUrl resp = edsURL)) as [He|He].
    + by rewrite dispatch_eds.
    + by rewrite dispatch_unknown.
Qed.

Lemma foldl_dispatch_assignments st resps :
  assignments (client (foldl (dispatch UnmarshalAny) st resps))
  = foldl (λ a name, SetClusterLoadAssignment a name None)
          (assignments (client st)) (resps ≫= unpackedNames UnmarshalAny).
Proof.
  revert st. induction resps as [|resp resps IH]; intros st; [done|].
  simpl. by rewrite IH, dispatch_assignments, foldl_app.
Qed.

(** The state in which a run ends is the fold of [dispatch] over the
    responses delivered before the first error of [Recv]. *)
Lemma Receive_loop_finalState inbound st :
  recvResults (stream st) = inbound →
  finalState (Receive_loop UnmarshalAny inbound st)
  = setRecv (undelivered inbound)
      (foldl (dispatch UnmarshalAny) st (delivered inbound)).
Proof.
  revert st. induction inbound as [|r inbound IH]; intros st Hst; simpl.
  - by rewrite <- Hst, setRecv_id.
  - destruct r as [resp|err]; simpl; [|done].
    rewrite IH by (by rewrite dispatch_setRecv).
    by rewrite dispatch_setRecv, foldl_dispatch_setRecv, setRecv_setRecv.
Qed.

Lemma Receive_finalState c s out :
  finalState (Receive UnmarshalAny c s out)
  = setRecv (undelivered (recvResults s))
      (foldl (dispatch UnmarshalAny)
             {| client := c; stream := s; output := out |}
             (delivered (recvResults s))).
Proof. unfold Receive. by apply Receive_loop_finalState. Qed.

Lemma Receive_cla c s out :
  cla (assignments (client (finalState (Receive UnmarshalAny c s out))))
  = cla (assignments c)
    ∪ gset_to_gmap None
        (list_to_set (delivered (recvResults s) ≫= unpackedNames UnmarshalAny)).
Proof.
  rewrite Receive_finalState. simpl.
  rewrite foldl_dispatch_assignments. simpl. apply foldl_Set_nil_cla.
Qed.

(** X7. The store after a run of [Receive], however the run ends: the
    map is the map before the run, with a nil entry added for each name
    unpacked from a Cluster-type response delivered before the first error
    of [Recv] and unknown before the run; [version] is as before. *)
Theorem Receive_store
    (c : Client) (s : adsStream) (out : list Output) :
  let a' := assignments (client (finalState (Receive UnmarshalAny c s out))) in
  cla a'
  = cla (assignments c)
    ∪ gset_to_gmap None
        (list_to_set (delivered (recvResults s) ≫= unpackedNames UnmarshalAny)) ∧
  version a' = version (assignments c).
Proof.
  intros a'. unfold a'. split; [apply Receive_cla|].
  rewrite Receive_finalState. simpl.
  rewrite foldl_dispatch_assignments. simpl. apply foldl_Set_nil_version.
Qed.

(** X8. What a run of [Receive] never does to the store: it removes no
    cluster, it changes no entry that was there, and it records no
    assignment: an assignment found in the store after the run was there,
    under the same cluster, before the run. *)
Theorem Receive_keeps_entries
    (c : Client) (s : adsStream) (out : list Output) :
  let a := assignments c in
  let a' := assignments (client (finalState (Receive UnmarshalAny c s out))) in
  dom (cla a) ⊆ dom (cla a') ∧
  (∀ cluster, is_Some (cla a !! cluster) →
              cla a' !! cluster = cla a !! cluster) ∧
  (∀ cluster x, cla a' !! cluster = Some (Some x) →
                cla a !! cluster = Some (Some x)).
Proof.
  intros a a'. pose proof (Receive_cla c s out) as Hcla.
  fold a a' in Hcla. split; [|split].
  - rewrite Hcla, dom_union_L. set_solver.
  - intros cluster [v Hv]. by rewrite Hcla, union_nil_entries_lookup, Hv.
  - intros cluster x. rewrite Hcla, union_nil_entries_lookup.
    destruct (cla a !! cluster) as [v|]; [done|]. by case_decide.
Qed.

Lemma withAssignments_id c : withAssignments c (assignments c) = c.
Proof. by destruct c. Qed.

Lemma dispatch_known_names st resp :
  (∀ name, name ∈ unpackedNames UnmarshalAny resp →
           is_Some (cla (assignments (client st)) !! name)) →
  client (dispatch UnmarshalAny st resp) = client st.
Proof.
  intros Hknown.
  assert (assignments (client (dispatch UnmarshalAny st resp))
          = assignments (client st)) as Ha.
  { rewrite dispatch_assignments. by apply foldl_Set_nil_all_known. }
  pose proof (dispatch_node UnmarshalAny st resp) as Hn.
  destruct (client (dispatch UnmarshalAny st resp)), (client st).
  simpl in *. by subst.
Qed.


(** X10. A response delivered a second time, right after the first, leaves
    the client and its store as the first delivery left them. *)
Theorem dispatch_twice_same_client
    (st : State) (resp : xdspb.DiscoveryResponse) :
  client (dispatch UnmarshalAny (dispatch UnmarshalAny st resp) resp)
  = client (dispatch UnmarshalAny st resp).
Proof.
  apply dispatch_known_names. intros name Hname.
  apply elem_of_dom. rewrite dispatch_dom, elem_of_union.
  right. by apply elem_of_list_to_set.
Qed.

Lemma drop_drop_two {A} (l : list A) n :
  drop (2 * n) (drop 2 l) = drop (2 * S n) l.
Proof. rewrite drop_drop. f_equal. lia. Qed.

Lemma foldl_dispatch_sent st resps :
  let cds := filter (λ r, isCDS r = true) resps in
  let st' := foldl (dispatch UnmarshalAny) st resps in
  ∃ new,
    sent (stream st') = sent (stream st) ++ new ∧
    xdspb.TypeUrl <$> new = cds ≫= (λ _, [cdsURL; edsURL]) ∧
    xdspb.VersionInfo <$> new = cds ≫= (λ r, [xdspb.GetVersionInfo r; ""]) ∧
    xdspb.ResponseNonce <$> new = cds ≫= (λ r, [xdspb.GetNonce r; ""]) ∧
    sendResults (stream st') = drop (2 * length cds) (sendResults (stream st)).
Proof.
  revert st. induction resps as [|resp resps IH]; intros st; simpl.
  - exists []. by rewrite app_nil_r.
  - destruct (IH (dispatch UnmarshalAny st resp))
      as (new & Hsent & Hurl & Hver & Hnonce & Hres).
    rewrite filter_cons. destruct (isCDS resp) eqn:E.
    + rewrite decide_True by done.
      assert (xdspb.GetTypeUrl resp = cdsURL) as Hc
        by (by apply bool_decide_eq_true in E).
      destruct (dispatch_cds UnmarshalAny st resp Hc)
        as (_ & Hsent1 & Hres1 & _).
      eexists (_ :: _ :: new).
      rewrite Hsent, Hsent1, <- app_assoc. split; [done|].
      rewrite !fmap_cons, !bind_cons, Hurl, Hver, Hnonce, Hres, Hres1.
      repeat split. apply drop_drop_two.
    + rewrite decide_False by done. exists new.
      assert (xdspb.GetTypeUrl resp ≠ cdsURL) as Hc
        by (by apply bool_decide_eq_false in E).
      assert (stream (dispatch UnmarshalAny st resp) = stream st) as Hst.
      { destruct (decide (xdspb.GetTypeUrl resp = edsURL)) as [He|He].
        - by rewrite dispatch_eds.
        - by rewrite dispatch_unknown. }
      by rewrite Hsent, Hres, Hst.
Qed.

(** X11. The requests of a run of [Receive], however the run ends and
    whatever [Send] returns: for each Cluster-type response delivered
    before the first error of [Recv], in the order of delivery, a
    Cluster-type request with the version and the nonce of the response and
    then an Endpoint-type request with empty version and nonce; no request
    for any other response. Each request uses up one result of [Send]. *)
Theorem Receive_requests
    (c : Client) (s : adsStream) (out : list Output) :
  let cds := cdsDelivered (recvResults s) in
  let st := finalState (Receive UnmarshalAny c s out) in
  ∃ new,
    sent (stream st) = sent s ++ new ∧
    xdspb.TypeUrl <$> new = cds ≫= (λ _, [cdsURL; edsURL]) ∧
    xdspb.VersionInfo <$> new = cds ≫= (λ r, [xdspb.GetVersionInfo r; ""]) ∧
    xdspb.ResponseNonce <$> new = cds ≫= (λ r, [xdspb.GetNonce r; ""]) ∧
    sendResults (stream st) = drop (2 * length cds) (sendResults s).
Proof.
  intros cds st. unfold st. rewrite Receive_finalState. simpl.
  apply (foldl_dispatch_sent {| client := c; stream := s; output := out |}).
Qed.

(** ** What the loop writes *)

Lemma dispatch_output_unknownURL st resp :
  omap unknownURL (output (dispatch UnmarshalAny st resp))
  = omap unknownURL (output st)
    ++ (if isUnknown resp then [xdspb.GetTypeUrl resp] else []).
Proof.
  unfold isUnknown.
  destruct (decide (xdspb.GetTypeUrl resp = cdsURL)) as [Hc|Hc].
  - rewrite bool_decide_eq_false_2 by (by intros [? _]).
    destruct (dispatch_cds UnmarshalAny st resp Hc) as (_ & _ & _ & _ & ->).
    rewrite app_nil_r.
    destruct (sendResults (stream st) !! 1) as [[e2|]|],
             (sendResults (stream st) !! 0) as [[e1|]|];
      simpl; rewrite ?omap_app; simpl; by rewrite ?app_nil_r.
  - destruct (decide (xdspb.GetTypeUrl resp = edsURL)) as [He|He].
    + rewrite bool_decide_eq_false_2 by (by intros [_ ?]).
      rewrite dispatch_eds by done. simpl.
      by rewrite omap_app.
    + rewrite bool_decide_eq_true_2 by done.
      rewrite dispatch_unknown by done. simpl.
      by rewrite omap_app.
Qed.

Lemma dispatch_output_sendFailure st resp :
  omap sendFailure (output (dispatch UnmarshalAny st resp))
  = omap sendFailure (output st)
    ++ (if isCDS resp
        then omap id (take 2 (sendResults (stream st))) else []).
Proof.
  unfold isCDS.
  destruct (decide (xdspb.GetTypeUrl resp = cdsURL)) as [Hc|Hc].
  - rewrite bool_decide_eq_true_2 by done.
    destruct (dispatch_cds UnmarshalAny st resp Hc) as (_ & _ & _ & _ & ->).
    destruct (sendResults (stream st)) as [|[e1|] [|[e2|] ss]];
      simpl; rewrite ?omap_app; simpl;
      rewrite <- ?app_assoc, ?app_nil_r; done.
  - rewrite bool_decide_eq_false_2 by done. rewrite app_nil_r.
    destruct (decide (xdspb.GetTypeUrl resp = edsURL)) as [He|He].
    + rewrite dispatch_eds by done. simpl.
      rewrite omap_app. simpl. by rewrite app_nil_r.
    + rewrite dispatch_unknown by done. simpl.
      rewrite omap_app. simpl. by rewrite app_nil_r.
Qed.

Lemma dispatch_sendResults st resp :
  sendResults (stream (dispatch UnmarshalAny st resp))
  = if isCDS resp then drop 2 (sendResults (stream st))
    else sendResults (stream st).
Proof.
  unfold isCDS.
  destruct (decide (xdspb.GetTypeUrl resp = cdsURL)) as [Hc|Hc].
  - rewrite bool_decide_eq_true_2 by done.
    by destruct (dispatch_cds UnmarshalAny st resp Hc) as (_ & _ & -> & _).
  - rewrite bool_decide_eq_false_2 by done.
    destruct (decide (xdspb.GetTypeUrl resp = edsURL)) as [He|He].
    + by rewrite dispatch_eds.
    + by rewrite dispatch_unknown.
Qed.

Lemma foldl_dispatch_output_unknownURL st resps :
  omap unknownURL (output (foldl (dispatch UnmarshalAny) st resps))
  = omap unknownURL (output st)
    ++ (xdspb.GetTypeUrl <$> filter (λ r, isUnknown r = true) resps).
Proof.
  revert st. induction resps as [|resp resps IH]; intros st; simpl.
  - by rewrite app_nil_r.
  - rewrite IH, dispatch_output_unknownURL, filter_cons, <- app_assoc.
    f_equal. destruct (isUnknown resp).
    + by rewrite decide_True.
    + by rewrite decide_False.
Qed.

Lemma foldl_dispatch_output_sendFailure st resps :
  omap sendFailure (output (foldl (dispatch UnmarshalAny) st resps))
  = omap sendFailure (output st)
    ++ omap id (take (2 * length (filter (λ r, isCDS r = true) resps))
                     (sendResults (stream st))).
Proof.
  revert st. induction resps as [|resp resps IH]; intros st; simpl.
  - by rewrite ?take_0, app_nil_r.
  - rewrite IH, dispatch_output_sendFailure, dispatch_sendResults,
      filter_cons, <- app_assoc.
    f_equal. destruct (isCDS resp).
    + rewrite decide_True by done. rewrite <- omap_app, take_take_drop.
      do 2 f_equal. simpl. lia.
    + by rewrite decide_False.
Qed.

(** X12. The warnings about unknown responses that a run of [Receive]
    writes: one for each response delivered before the first error of
    [Recv] whose type URL is neither the Cluster nor the Endpoint one, in
    the order of delivery and with that type URL; and no other. *)
Theorem Receive_unknown_warnings
    (c : Client) (s : adsStream) (out : list Output) :
  omap unknownURL (output (finalState (Receive UnmarshalAny c s out)))
  = omap unknownURL out
    ++ (xdspb.GetTypeUrl <$>
          filter (λ r, isUnknown r = true) (delivered (recvResults s))).
Proof.
  rewrite Receive_finalState. simpl.
  apply (foldl_dispatch_output_unknownURL
           {| client := c; stream := s; output := out |}).
Qed.

(** X13. No error of [Send] goes unreported: the warnings about failed
    requests that a run of [Receive] writes carry, in order, the errors
    among the results of [Send] that the run used up, two results for each
    Cluster-type response delivered; and no other. *)
Theorem Receive_send_failures_logged
    (c : Client) (s : adsStream) (out : list Output) :
  omap sendFailure (output (finalState (Receive UnmarshalAny c s out)))
  = omap sendFailure out
    ++ omap id (take (2 * length (cdsDelivered (recvResults s)))
                     (sendResults s)).
Proof.
  rewrite Receive_finalState. simpl.
  apply (foldl_dispatch_output_sendFailure
           {| client := c; stream := s; output := out |}).
Qed.

End Loop.

(** ** The further properties at concrete inputs *)


Lemma Receive_requests_carry_node_witness :
  let s := emptyStream ((RecvOk <$> exampleResponses) ++ [RecvErr "EOF"])
                       [Some "broken pipe"] in
  let st := finalState (Receive exampleUnmarshalAny exampleClient s []) in
  node (client st) = node exampleClient ∧
  Forall (λ req, xdspb.Node req = node exampleClient) (sent (stream st)).
Proof.
  intros s.
  apply (Receive_requests_carry_node exampleUnmarshalAny exampleClient s []).
  constructor.
Defined.
